(** * Azure Kinect body tracking SDK headers: a model of the declarations

    The two headers [k4abttypes.h] and [k4abtversion.h] declare enumerations,
    plain C structures, one union, a few object-like macros and one constant
    object.  This development embeds

    - the enumerations, as inductive types together with the enumerator list
      of their declaration and the C rule that numbers the enumerators;
    - the structures and the union, as type descriptors with the C layout
      rules ([sizeof], [alignof], member offsets), and objects of these types
      as byte sequences read and written through member designators;
    - the macros and the constant object, as constants.

    Sizes follow the ABIs the SDK ships for (x86-64 and ARM64, little endian):
    [float] is IEEE 754 binary32, [uint32_t] and enumerations take four bytes. *)

From Stdlib Require Import ZArith QArith Lia.
From Stdlib Require Import Floats.SpecFloat.
From stdpp Require Import base list strings pretty.
From coqutil Require Import Byte Word.LittleEndianList.

Local Open Scope Z_scope.

(** ** Enumerations *)

(** An enumerator of a C [enum] declaration: the constant it introduces and
    the value written after [=], when there is one. *)
Definition enumerator (A : Type) : Type := A * option Z.

Section Enum.
Context {A : Type}.

(** The value of each enumerator: the explicit one when given, otherwise
    one more than the previous enumerator ([next]). *)
Fixpoint enum_assign (next : Z) (d : list (enumerator A)) : list (A * Z) :=
  match d with
  | [] => []
  | (a, o) :: d' =>
      let v := match o with Some v => v | None => next end in
      (a, v) :: enum_assign (v + 1) d'
  end.

(** The first enumerator defaults to 0. *)
Definition enum_values (d : list (enumerator A)) : list (A * Z) :=
  enum_assign 0 d.

Context `{EqDecision A}.

Fixpoint assoc (a : A) (l : list (A * Z)) : option Z :=
  match l with
  | [] => None
  | (b, v) :: l' => if decide (a = b) then Some v else assoc a l'
  end.

(** The integer value of the enumeration constant [a]. *)
Definition enum_ordinal (d : list (enumerator A)) (a : A) : option Z :=
  assoc a (enum_values d).
End Enum.

(** [k4abttypes.h], lines 57-86. *)
Inductive k4abt_joint_id_t : Set :=
  | K4ABT_JOINT_PELVIS
  | K4ABT_JOINT_SPINE_NAVAL
  | K4ABT_JOINT_SPINE_CHEST
  | K4ABT_JOINT_NECK
  | K4ABT_JOINT_CLAVICLE_LEFT
  | K4ABT_JOINT_SHOULDER_LEFT
  | K4ABT_JOINT_ELBOW_LEFT
  | K4ABT_JOINT_WRIST_LEFT
  | K4ABT_JOINT_CLAVICLE_RIGHT
  | K4ABT_JOINT_SHOULDER_RIGHT
  | K4ABT_JOINT_ELBOW_RIGHT
  | K4ABT_JOINT_WRIST_RIGHT
  | K4ABT_JOINT_HIP_LEFT
  | K4ABT_JOINT_KNEE_LEFT
  | K4ABT_JOINT_ANKLE_LEFT
  | K4ABT_JOINT_FOOT_LEFT
  | K4ABT_JOINT_HIP_RIGHT
  | K4ABT_JOINT_KNEE_RIGHT
  | K4ABT_JOINT_ANKLE_RIGHT
  | K4ABT_JOINT_FOOT_RIGHT
  | K4ABT_JOINT_HEAD
  | K4ABT_JOINT_NOSE
  | K4ABT_JOINT_EYE_LEFT
  | K4ABT_JOINT_EAR_LEFT
  | K4ABT_JOINT_EYE_RIGHT
  | K4ABT_JOINT_EAR_RIGHT
  | K4ABT_JOINT_COUNT.

#[global] Instance k4abt_joint_id_t_eq_dec : EqDecision k4abt_joint_id_t.
Proof. solve_decision. Defined.

(** The enumerator list as written: only the first one carries a value. *)
Definition k4abt_joint_id_t_decl : list (enumerator k4abt_joint_id_t) :=
  [ (K4ABT_JOINT_PELVIS, Some 0);
    (K4ABT_JOINT_SPINE_NAVAL, None);
    (K4ABT_JOINT_SPINE_CHEST, None);
    (K4ABT_JOINT_NECK, None);
    (K4ABT_JOINT_CLAVICLE_LEFT, None);
    (K4ABT_JOINT_SHOULDER_LEFT, None);
    (K4ABT_JOINT_ELBOW_LEFT, None);
    (K4ABT_JOINT_WRIST_LEFT, None);
    (K4ABT_JOINT_CLAVICLE_RIGHT, None);
    (K4ABT_JOINT_SHOULDER_RIGHT, None);
    (K4ABT_JOINT_ELBOW_RIGHT, None);
    (K4ABT_JOINT_WRIST_RIGHT, None);
    (K4ABT_JOINT_HIP_LEFT, None);
    (K4ABT_JOINT_KNEE_LEFT, None);
    (K4ABT_JOINT_ANKLE_LEFT, None);
    (K4ABT_JOINT_FOOT_LEFT, None);
    (K4ABT_JOINT_HIP_RIGHT, None);
    (K4ABT_JOINT_KNEE_RIGHT, None);
    (K4ABT_JOINT_ANKLE_RIGHT, None);
    (K4ABT_JOINT_FOOT_RIGHT, None);
    (K4ABT_JOINT_HEAD, None);
    (K4ABT_JOINT_NOSE, None);
    (K4ABT_JOINT_EYE_LEFT, None);
    (K4ABT_JOINT_EAR_LEFT, None);
    (K4ABT_JOINT_EYE_RIGHT, None);
    (K4ABT_JOINT_EAR_RIGHT, None);
    (K4ABT_JOINT_COUNT, None) ].

Definition joint_ordinal : k4abt_joint_id_t -> option Z :=
  enum_ordinal k4abt_joint_id_t_decl.

(** [k4abttypes.h], lines 97-103. *)
Inductive k4abt_sensor_orientation_t : Set :=
  | K4ABT_SENSOR_ORIENTATION_DEFAULT
  | K4ABT_SENSOR_ORIENTATION_CLOCKWISE90
  | K4ABT_SENSOR_ORIENTATION_COUNTERCLOCKWISE90
  | K4ABT_SENSOR_ORIENTATION_FLIP180.

#[global] Instance k4abt_sensor_orientation_t_eq_dec :
  EqDecision k4abt_sensor_orientation_t.
Proof. solve_decision. Defined.

Definition k4abt_sensor_orientation_t_decl :
  list (enumerator k4abt_sensor_orientation_t) :=
  [ (K4ABT_SENSOR_ORIENTATION_DEFAULT, Some 0);
    (K4ABT_SENSOR_ORIENTATION_CLOCKWISE90, None);
    (K4ABT_SENSOR_ORIENTATION_COUNTERCLOCKWISE90, None);
    (K4ABT_SENSOR_ORIENTATION_FLIP180, None) ].

Definition orientation_ordinal : k4abt_sensor_orientation_t -> option Z :=
  enum_ordinal k4abt_sensor_orientation_t_decl.

(** ** Types and their layout *)

(** The C types the headers use.  An enumeration is represented as [int]. *)
#[warnings="-register-all"]
Inductive ctype : Set :=
  | Tfloat
  | Tuint32
  | Tenum
  | Tarray (elem : ctype) (len : nat)
  | Tstruct (members : list (string * ctype))
  | Tunion (members : list (string * ctype)).

(** The least multiple of [a] that is at least [n]. *)
Definition align_up (n a : nat) : nat := ((n + a - 1) / a * a)%nat.

Fixpoint alignof (t : ctype) : nat :=
  match t with
  | Tfloat | Tuint32 | Tenum => 4
  | Tarray elem _ => alignof elem
  | Tstruct ms | Tunion ms =>
      (fix widest (ms : list (string * ctype)) : nat :=
         match ms with
         | [] => 1
         | (_, mt) :: ms' => Nat.max (alignof mt) (widest ms')
         end) ms
  end%nat.

Fixpoint sizeof (t : ctype) : nat :=
  match t with
  | Tfloat | Tuint32 | Tenum => 4
  | Tarray elem len => len * sizeof elem
  | Tstruct ms =>
      (* members one after the other, each at the next offset its alignment
         allows; padding at the end up to the alignment of the whole *)
      align_up
        ((fix place (off : nat) (ms : list (string * ctype)) : nat :=
            match ms with
            | [] => off
            | (_, mt) :: ms' => place (align_up off (alignof mt) + sizeof mt) ms'
            end) 0 ms)
        (alignof (Tstruct ms))
  | Tunion ms =>
      (* members on top of each other *)
      align_up
        ((fix largest (ms : list (string * ctype)) : nat :=
            match ms with
            | [] => 0
            | (_, mt) :: ms' => Nat.max (sizeof mt) (largest ms')
            end) ms)
        (alignof (Tunion ms))
  end%nat.

(** Offset and type of the member [name] of a structure whose members [ms]
    start being placed at [off]. *)
Fixpoint struct_member (off : nat) (ms : list (string * ctype)) (name : string)
  : option (nat * ctype) :=
  match ms with
  | [] => None
  | (n, mt) :: ms' =>
      let o := align_up off (alignof mt) in
      if decide (n = name) then Some (o, mt)
      else struct_member (o + sizeof mt)%nat ms' name
  end.

(** Every member of a union starts at offset 0. *)
Fixpoint union_member (ms : list (string * ctype)) (name : string)
  : option (nat * ctype) :=
  match ms with
  | [] => None
  | (n, mt) :: ms' =>
      if decide (n = name) then Some (0%nat, mt) else union_member ms' name
  end.

(** One step of a designator: [.name] or [[i]]. *)
Inductive designator : Set :=
  | Member (name : string)
  | Index (i : nat).

Definition select (t : ctype) (d : designator) : option (nat * ctype) :=
  match t, d with
  | Tstruct ms, Member name => struct_member 0 ms name
  | Tunion ms, Member name => union_member ms name
  | Tarray elem len, Index i =>
      if decide (i < len)%nat then Some (i * sizeof elem, elem)%nat else None
  | _, _ => None
  end.

(** Offset (from the start of an object of type [t]) and type of the
    subobject a designator path names; [None] when the path names no
    subobject of [t]. *)
Fixpoint subobject (t : ctype) (p : list designator) : option (nat * ctype) :=
  match p with
  | [] => Some (0%nat, t)
  | d :: p' =>
      match select t d with
      | Some (o, t') =>
          match subobject t' p' with
          | Some (o', t'') => Some (o + o', t'')%nat
          | None => None
          end
      | None => None
      end
  end.

(** [k4abttypes.h], lines 133-144. *)
Definition k4a_quaternion_t : ctype :=
  Tunion
    [ ("wxyz", Tstruct [ ("w", Tfloat); ("x", Tfloat); ("y", Tfloat); ("z", Tfloat) ]);
      ("v", Tarray Tfloat 4) ].

(** Modelled from the spec: [k4a_float3_t] is declared in [k4a/k4atypes.h],
    which is not among the sources; the spec gives the position of a joint as
    three floats. *)
Definition k4a_float3_t : ctype := Tarray Tfloat 3.

(** [k4abttypes.h], lines 151-155. *)
Definition k4abt_joint_t : ctype :=
  Tstruct [ ("position", k4a_float3_t); ("orientation", k4a_quaternion_t) ].

(** The value of an enumeration constant used as an array length. *)
Definition array_length (ordinal : option Z) : nat :=
  from_option Z.to_nat 0%nat ordinal.

(** [k4abttypes.h], lines 159-162. *)
Definition k4abt_skeleton_t : ctype :=
  Tstruct
    [ ("joints", Tarray k4abt_joint_t (array_length (joint_ordinal K4ABT_JOINT_COUNT))) ].

(** [k4abttypes.h], lines 166-170. *)
Definition k4abt_body_t : ctype :=
  Tstruct [ ("id", Tuint32); ("skeleton", k4abt_skeleton_t) ].

(** The structure behind [k4abt_tracker_configuration_t],
    [k4abttypes.h], lines 110-117. *)
Definition _k4abt_tracker_configuration_t : ctype :=
  Tstruct [ ("sensor_orientation", Tenum) ].

(** ** Objects as bytes *)

(** An object of type [t] is stored in [sizeof t] bytes. *)
Definition object : Type := list byte.

Definition peek (off n : nat) (obj : object) : list byte :=
  take n (drop off obj).

Definition poke (off : nat) (bs : list byte) (obj : object) : object :=
  list_inserts off bs obj.

(** The four-byte scalar types. *)
Definition scalar_eqb (a b : ctype) : bool :=
  match a, b with
  | Tfloat, Tfloat | Tuint32, Tuint32 | Tenum, Tenum => true
  | _, _ => false
  end.

(** Reading the subobject [p] of [obj : t] as a scalar of type [ty]: its
    bytes, least significant first.  [None] when [p] does not name a
    subobject of that type. *)
Definition load_scalar (ty t : ctype) (p : list designator) (obj : object)
  : option Z :=
  match subobject t p with
  | Some (off, mt) =>
      if scalar_eqb ty mt then Some (le_combine (peek off (sizeof mt) obj))
      else None
  | None => None
  end.

(** Assigning the scalar [v] to the subobject [p] of [obj : t]. *)
Definition store_scalar (ty t : ctype) (p : list designator) (v : Z) (obj : object)
  : option object :=
  match subobject t p with
  | Some (off, mt) =>
      if scalar_eqb ty mt then Some (poke off (le_split (sizeof mt) v) obj)
      else None
  | None => None
  end.

(** A [float] in an object is its binary32 encoding, a number below 2^32. *)
Definition float32 : Type := Z.

Definition is_float32 (f : float32) : Prop := 0 <= f < 2 ^ 32.

Definition load_float := load_scalar Tfloat.
Definition store_float := store_scalar Tfloat.

(** The range of an unsigned scalar of type [t]. *)
Definition max_unsigned (t : ctype) : Z := 2 ^ (8 * Z.of_nat (sizeof t)) - 1.

(** The two views of [k4a_quaternion_t]. *)
Definition wxyz_w : list designator := [Member "wxyz"; Member "w"].
Definition wxyz_x : list designator := [Member "wxyz"; Member "x"].
Definition wxyz_y : list designator := [Member "wxyz"; Member "y"].
Definition wxyz_z : list designator := [Member "wxyz"; Member "z"].
Definition v_ (i : nat) : list designator := [Member "v"; Index i].

(** ** binary32 *)

Definition prec32 : Z := 24.
Definition emax32 : Z := 128.

(** The float a binary32 encoding denotes: sign bit, eight exponent bits,
    twenty-three fraction bits. *)
Definition float_of_bits (b : float32) : spec_float :=
  let s := Z.testbit b 31 in
  let e := Z.land (Z.shiftr b 23) 0xFF in
  let m := Z.land b 0x7FFFFF in
  if e =? 0 then
    match m with
    | Zpos p => S754_finite s p (3 - emax32 - prec32)
    | _ => S754_zero s
    end
  else if e =? 0xFF then
    if m =? 0 then S754_infinity s else S754_nan
  else
    match m + 2 ^ 23 with
    | Zpos p => S754_finite s p (e - 127 - 23)
    | _ => S754_nan
    end.

(** The encoding of a float in canonical form. *)
Definition bits_of_float (f : spec_float) : float32 :=
  let sign (s : bool) : Z := if s then 2 ^ 31 else 0 in
  match f with
  | S754_zero s => sign s
  | S754_infinity s => sign s + 0xFF * 2 ^ 23
  | S754_nan => 0x7FC00000
  | S754_finite s m e =>
      if Zpos m <? 2 ^ 23 then sign s + Zpos m
      else sign s + (e + 127 + 23) * 2 ^ 23 + (Zpos m - 2 ^ 23)
  end.

Definition float32_of_Z (n : Z) : spec_float :=
  binary_normalize prec32 emax32 n 0 false.

(** The float constant [digits * 10^exp10] with suffix [f].  Both [digits]
    and the power of ten are converted first, which is exact while they have
    at most 24 significant bits. *)
Definition float32_literal (digits exp10 : Z) : spec_float :=
  if 0 <=? exp10 then float32_of_Z (digits * 10 ^ exp10)
  else SFdiv prec32 emax32 (float32_of_Z digits) (float32_of_Z (10 ^ (- exp10))).

(** The rational a finite float stands for, in lowest terms. *)
Definition float_value (f : spec_float) : option Q :=
  match f with
  | S754_zero _ => Some 0%Q
  | S754_finite s m e =>
      let m' := if s then Zneg m else Zpos m in
      Some (Qred (inject_Z m' * Qpower 2 e))
  | _ => None
  end.

(** ** Constants *)

(** [k4abttypes.h], line 186. *)
Definition K4ABT_BODY_INDEX_MAP_BACKGROUND : Z := 255.

(** [k4abttypes.h], line 190. *)
Definition K4ABT_INVALID_BODY_ID : Z := 0xFFFFFFFF.

(** [k4abttypes.h], line 194: [0.5f]. *)
Definition K4ABT_DEFAULT_TRACKER_SMOOTHING_FACTOR : spec_float :=
  float32_literal 5 (-1).

(** [k4abttypes.h], lines 110-117. *)
Record k4abt_tracker_configuration_t : Set :=
  { sensor_orientation : k4abt_sensor_orientation_t }.

(** [k4abttypes.h], line 201: the initializer list gives the members in
    order. *)
Definition K4ABT_TRACKER_CONFIG_DEFAULT : k4abt_tracker_configuration_t :=
  Build_k4abt_tracker_configuration_t K4ABT_SENSOR_ORIENTATION_DEFAULT.

(** ** Version, [k4abtversion.h] *)

Definition K4ABT_VERSION_MAJOR : N := 0.
Definition K4ABT_VERSION_MINOR : N := 9.
Definition K4ABT_VERSION_PATCH : N := 2.
Definition K4ABT_VERSION_PRERELEASE : string := EmptyString.
Definition K4ABT_VERSION_BUILD_METADATA : string := EmptyString.
Definition K4ABT_VERSION_STR : string := "0.9.2".

(** The three numbers in decimal, joined by dots. *)
Definition dotted (major minor patch : N) : string :=
  pretty major +:+ "." +:+ pretty minor +:+ "." +:+ pretty patch.

(** The full version in the format of Semantic Versioning 2.0.0, whose
    component names the macros follow: the dotted triple, then [-] and the
    prerelease when there is one, then [+] and the build metadata when there
    is some. *)
Definition semver (major minor patch : N) (prerelease build : string) : string :=
  dotted major minor patch
  +:+ (if decide (prerelease = EmptyString) then EmptyString else "-" +:+ prerelease)
  +:+ (if decide (build = EmptyString) then EmptyString else "+" +:+ build).

(** Reading and writing a whole view, member by member. *)
Definition load_floats (t : ctype) (ps : list (list designator)) (obj : object)
  : list (option float32) :=
  (fun p => load_float t p obj) <$> ps.

Fixpoint store_floats (t : ctype) (ps : list (list designator)) (fs : list float32)
    (obj : object) : option object :=
  match ps, fs with
  | p :: ps', f :: fs' => store_float t p f obj ≫= store_floats t ps' fs'
  | _, _ => Some obj
  end.

Definition named_view : list (list designator) := [wxyz_w; wxyz_x; wxyz_y; wxyz_z].
Definition array_view : list (list designator) := v_ <$> seq 0 4.

(** The subobject [p] of an object of type [t] is a float at offset [off]. *)
Definition float_at (t : ctype) (p : list designator) (off : nat) : Prop :=
  subobject t p = Some (off, Tfloat).

(** Float members at offsets that do not overlap. *)
Inductive apart : list nat -> Prop :=
  | apart_nil : apart []
  | apart_cons (o : nat) (os : list nat) :
      Forall (fun o' => o + 4 <= o' \/ o' + 4 <= o)%nat os ->
      apart os ->
      apart (o :: os).

(** ** Further notions used by the properties below *)

(** A declaration in which every explicit value is the one the enumerator
    would get anyway, counting from [next]. *)
Fixpoint positional {A : Type} (next : Z) (d : list (enumerator A)) : bool :=
  match d with
  | [] => true
  | (_, o) :: d' =>
      match o with Some v => bool_decide (v = next) | None => true end
      && positional (next + 1) d'
  end.

(** The first enumeration constant with the value [v]: the conversion of an
    integer to the enumeration. *)
Fixpoint rassoc {A : Type} (v : Z) (l : list (A * Z)) : option A :=
  match l with
  | [] => None
  | (a, w) :: l' => if decide (v = w) then Some a else rassoc v l'
  end.

Definition enum_constant {A : Type} (d : list (enumerator A)) (v : Z) : option A :=
  rassoc v (enum_values d).

(** Where the members of a structure end, before the padding at its end. *)
Fixpoint struct_end (off : nat) (ms : list (string * ctype)) : nat :=
  match ms with
  | [] => off
  | (_, mt) :: ms' => struct_end (align_up off (alignof mt) + sizeof mt)%nat ms'
  end.

Fixpoint union_largest (ms : list (string * ctype)) : nat :=
  match ms with
  | [] => 0%nat
  | (_, mt) :: ms' => Nat.max (sizeof mt) (union_largest ms')
  end.

Fixpoint widest_member (ms : list (string * ctype)) : nat :=
  match ms with
  | [] => 1%nat
  | (_, mt) :: ms' => Nat.max (alignof mt) (widest_member ms')
  end.

(** [body.skeleton.joints[i]] and, below it, [.orientation] followed by a
    designator of the quaternion. *)
Definition joints_ (i : nat) : list designator :=
  [Member "skeleton"; Member "joints"; Index i].

Definition orientation_ (i : nat) (view : list designator) : list designator :=
  joints_ i ++ Member "orientation" :: view.

Definition position_ (i : nat) : list designator :=
  joints_ i ++ [Member "position"].

(** A configuration written to, and read from, an object of the structure. *)
Definition store_configuration (c : k4abt_tracker_configuration_t) (obj : object)
  : option object :=
  orientation_ordinal (sensor_orientation c) ≫= fun n =>
  store_scalar Tenum _k4abt_tracker_configuration_t [Member "sensor_orientation"] n obj.

Definition load_configuration (obj : object) : option k4abt_tracker_configuration_t :=
  load_scalar Tenum _k4abt_tracker_configuration_t [Member "sensor_orientation"] obj ≫= fun n =>
  enum_constant k4abt_sensor_orientation_t_decl n ≫= fun o =>
  Some (Build_k4abt_tracker_configuration_t o).

(** * Properties *)

(** ** The numbering of enumerators *)

Section EnumFacts.
Context {A : Type}.

Lemma enum_assign_implicit (d : list (enumerator A)) (next : Z) :
  Forall (fun e => e.2 = None) d ->
  enum_assign next d =
    zip d.*1 ((fun k => next + Z.of_nat k) <$> seq 0 (length d)).
Proof.
  intros Hd. revert next.
  induction Hd as [|[a o] d Ho Hd IH]; intros next; [reflexivity|].
  simpl in Ho. subst o. cbn [enum_assign fmap list_fmap length seq zip zip_with fst].
  rewrite Z.add_0_r. f_equal.
  rewrite IH, <- fmap_S_seq, <- list_fmap_compose.
  f_equal. apply list_fmap_ext. intros _ k _. simpl. lia.
Qed.

Lemma enum_values_first_explicit (a : A) (v : Z) (d : list (enumerator A)) :
  Forall (fun e => e.2 = None) d ->
  enum_values ((a, Some v) :: d) =
    zip (a :: d.*1) ((fun k => v + Z.of_nat k) <$> seq 0 (S (length d))).
Proof.
  intros Hd. unfold enum_values. cbn [enum_assign seq fmap list_fmap zip zip_with].
  rewrite Z.add_0_r. f_equal.
  rewrite (enum_assign_implicit _ _ Hd), <- fmap_S_seq, <- list_fmap_compose.
  f_equal. apply list_fmap_ext. intros _ k _. simpl. lia.
Qed.
End EnumFacts.

(** ** Bytes and scalars *)

Section Bytes.
Implicit Types (obj : object) (bs : list byte) (off n : nat).

Lemma length_poke off bs obj : length (poke off bs obj) = length obj.
Proof. apply length_inserts. Qed.

Lemma peek_poke_same off bs obj :
  (off + length bs <= length obj)%nat ->
  peek off (length bs) (poke off bs obj) = bs.
Proof.
  intros Hfit. unfold peek, poke. apply list_eq. intros i.
  rewrite lookup_take, lookup_drop.
  destruct (decide (i < length bs)%nat) as [Hi|Hi].
  - rewrite list_lookup_inserts by lia. f_equal. lia.
  - symmetry. apply lookup_ge_None. lia.
Qed.

Lemma peek_poke_disjoint off off' n bs obj :
  (off' + n <= off \/ off + length bs <= off')%nat ->
  peek off' n (poke off bs obj) = peek off' n obj.
Proof.
  intros Hapart. unfold peek, poke. apply list_eq. intros i.
  rewrite !lookup_take, !lookup_drop.
  destruct (decide (i < n)%nat) as [Hi|Hi]; [|reflexivity].
  destruct Hapart.
  - apply list_lookup_inserts_lt. lia.
  - apply list_lookup_inserts_ge. lia.
Qed.

Lemma length_peek off n obj :
  (off + n <= length obj)%nat -> length (peek off n obj) = n.
Proof. intros Hfit. unfold peek. rewrite length_take, length_drop. lia. Qed.
End Bytes.

Section Scalars.
Implicit Types (t ty mt : ctype) (p : list designator) (obj : object) (v : Z).

Lemma scalar_eqb_size ty mt : scalar_eqb ty mt = true -> sizeof mt = 4%nat.
Proof. destruct ty, mt; simpl; congruence. Qed.

(** A scalar assigned to a member is what is read back from it. *)
Lemma load_store_same ty t p off mt v obj :
  subobject t p = Some (off, mt) ->
  scalar_eqb ty mt = true ->
  (off + sizeof mt <= length obj)%nat ->
  0 <= v < 2 ^ 32 ->
  exists obj',
    store_scalar ty t p v obj = Some obj' /\
    length obj' = length obj /\
    load_scalar ty t p obj' = Some v.
Proof.
  intros Hp Hty Hfit Hv. unfold store_scalar, load_scalar.
  rewrite Hp, Hty. eexists. split; [reflexivity|].
  split; [apply length_poke|].
  rewrite (scalar_eqb_size _ _ Hty) in *.
  rewrite <- (length_le_split 4 v) at 1.
  rewrite peek_poke_same by (rewrite length_le_split; lia).
  rewrite le_combine_split. f_equal. apply Z.mod_small. exact Hv.
Qed.

(** Assigning to one member leaves a member stored elsewhere as it was. *)
Lemma load_store_other ty ty' t p p' off off' mt mt' v obj obj' :
  subobject t p = Some (off, mt) ->
  subobject t p' = Some (off', mt') ->
  (off' + sizeof mt' <= off \/ off + sizeof mt <= off')%nat ->
  store_scalar ty t p v obj = Some obj' ->
  load_scalar ty' t p' obj' = load_scalar ty' t p' obj.
Proof.
  intros Hp Hp' Hapart. unfold store_scalar, load_scalar.
  rewrite Hp, Hp'. destruct (scalar_eqb ty mt); [|discriminate].
  intros [= <-]. destruct (scalar_eqb ty' mt'); [|reflexivity].
  rewrite peek_poke_disjoint; [reflexivity|].
  rewrite length_le_split. exact Hapart.
Qed.
End Scalars.

Lemma joint_ordinal_cases (j : k4abt_joint_id_t) :
  exists n, joint_ordinal j = Some n /\
            (j = K4ABT_JOINT_COUNT /\ n = 26 \/
             j <> K4ABT_JOINT_COUNT /\ 0 <= n <= 25).
Proof.
  destruct j; eexists; (split; [reflexivity|]);
    first [ left; split; reflexivity | right; split; [discriminate | lia] ].
Qed.

(** C1: the enumerators of [k4abt_joint_id_t] are, in the order of the
    declaration, the 26 joints [K4ABT_JOINT_PELVIS] ... [K4ABT_JOINT_EAR_RIGHT]
    with the values 0 ... 25, followed by [K4ABT_JOINT_COUNT] with the value
    26; every constant of the type has a value, [K4ABT_JOINT_COUNT] alone has
    26, and distinct constants have distinct values. *)
Theorem k4abt_joint_id_t_ordinals :
  enum_values k4abt_joint_id_t_decl =
    zip [ K4ABT_JOINT_PELVIS; K4ABT_JOINT_SPINE_NAVAL; K4ABT_JOINT_SPINE_CHEST;
          K4ABT_JOINT_NECK; K4ABT_JOINT_CLAVICLE_LEFT; K4ABT_JOINT_SHOULDER_LEFT;
          K4ABT_JOINT_ELBOW_LEFT; K4ABT_JOINT_WRIST_LEFT; K4ABT_JOINT_CLAVICLE_RIGHT;
          K4ABT_JOINT_SHOULDER_RIGHT; K4ABT_JOINT_ELBOW_RIGHT; K4ABT_JOINT_WRIST_RIGHT;
          K4ABT_JOINT_HIP_LEFT; K4ABT_JOINT_KNEE_LEFT; K4ABT_JOINT_ANKLE_LEFT;
          K4ABT_JOINT_FOOT_LEFT; K4ABT_JOINT_HIP_RIGHT; K4ABT_JOINT_KNEE_RIGHT;
          K4ABT_JOINT_ANKLE_RIGHT; K4ABT_JOINT_FOOT_RIGHT; K4ABT_JOINT_HEAD;
          K4ABT_JOINT_NOSE; K4ABT_JOINT_EYE_LEFT; K4ABT_JOINT_EAR_LEFT;
          K4ABT_JOINT_EYE_RIGHT; K4ABT_JOINT_EAR_RIGHT; K4ABT_JOINT_COUNT ]
        (Z.of_nat <$> seq 0 27)
  /\ joint_ordinal K4ABT_JOINT_PELVIS = Some 0
  /\ joint_ordinal K4ABT_JOINT_EAR_RIGHT = Some 25
  /\ joint_ordinal K4ABT_JOINT_COUNT = Some 26
  /\ (forall j : k4abt_joint_id_t,
        exists n, joint_ordinal j = Some n /\
                  (j = K4ABT_JOINT_COUNT /\ n = 26 \/
                   j <> K4ABT_JOINT_COUNT /\ 0 <= n <= 25))
  /\ (forall j j' : k4abt_joint_id_t, joint_ordinal j = joint_ordinal j' -> j = j').
Proof.
  split.
  { unfold k4abt_joint_id_t_decl.
    rewrite enum_values_first_explicit by (repeat constructor).
    reflexivity. }
  repeat split; try reflexivity.
  - apply joint_ordinal_cases.
  - intros j j' H.
    destruct j, j'; first [ reflexivity | vm_compute in H; discriminate H ].
Qed.

(** C7: [k4abt_sensor_orientation_t] has the four enumerators default,
    clockwise 90, counter-clockwise 90 and flip 180, with the values 0, 1, 2
    and 3 in that order; the type has no other constant, and distinct
    constants have distinct values. *)
Theorem k4abt_sensor_orientation_t_ordinals :
  enum_values k4abt_sensor_orientation_t_decl =
    [ (K4ABT_SENSOR_ORIENTATION_DEFAULT, 0);
      (K4ABT_SENSOR_ORIENTATION_CLOCKWISE90, 1);
      (K4ABT_SENSOR_ORIENTATION_COUNTERCLOCKWISE90, 2);
      (K4ABT_SENSOR_ORIENTATION_FLIP180, 3) ]
  /\ (forall o : k4abt_sensor_orientation_t,
        exists n, orientation_ordinal o = Some n /\ 0 <= n <= 3)
  /\ (forall o o' : k4abt_sensor_orientation_t,
        orientation_ordinal o = orientation_ordinal o' -> o = o').
Proof.
  split.
  { unfold k4abt_sensor_orientation_t_decl.
    rewrite enum_values_first_explicit by (repeat constructor).
    reflexivity. }
  split.
  - intros []; eexists; (split; [reflexivity | lia]).
  - intros [] [] H; first [ reflexivity | vm_compute in H; discriminate H ].
Qed.

(** ** The skeleton *)

Lemma skeleton_joint_index (i : nat) :
  subobject k4abt_skeleton_t [Member "joints"; Index i] =
    if decide (i < 26)%nat then Some ((i * sizeof k4abt_joint_t)%nat, k4abt_joint_t)
    else None.
Proof.
  change k4abt_skeleton_t with (Tstruct [("joints", Tarray k4abt_joint_t 26)]).
  cbn [subobject select struct_member].
  rewrite decide_True by reflexivity. cbn [select].
  destruct (decide (i < 26)%nat); [|reflexivity].
  change (align_up 0 _) with 0%nat.
  do 2 f_equal. lia.
Qed.

(** C4: [k4abt_skeleton_t] has the single member [joints], an array of
    [K4ABT_JOINT_COUNT] = 26 elements of type [k4abt_joint_t]; the value [n] of
    every joint identifier [j] other than the sentinel designates the element
    [joints[n]], an index designates an element exactly when it is below 26,
    and no other member name is selected. *)
Theorem k4abt_skeleton_t_joints (j : k4abt_joint_id_t) (n : Z) :
  joint_ordinal j = Some n ->
  j <> K4ABT_JOINT_COUNT ->
  k4abt_skeleton_t = Tstruct [("joints", Tarray k4abt_joint_t 26)]
  /\ joint_ordinal K4ABT_JOINT_COUNT = Some 26
  /\ sizeof k4abt_skeleton_t = (26 * sizeof k4abt_joint_t)%nat
  /\ subobject k4abt_skeleton_t [Member "joints"; Index (Z.to_nat n)] =
       Some ((Z.to_nat n * sizeof k4abt_joint_t)%nat, k4abt_joint_t)
  /\ (forall i : nat,
        is_Some (subobject k4abt_skeleton_t [Member "joints"; Index i]) <->
        (i < 26)%nat)
  /\ (forall name : string,
        name <> "joints" -> select k4abt_skeleton_t (Member name) = None).
Proof.
  intros Hn Hj.
  split; [reflexivity|]. split; [reflexivity|]. split; [reflexivity|].
  split; [|split].
  - destruct (joint_ordinal_cases j) as (n' & Hn' & [[-> _]|[_ Hb]]); [done|].
    rewrite Hn in Hn'. injection Hn' as <-.
    rewrite skeleton_joint_index. apply decide_True. lia.
  - intros i. rewrite skeleton_joint_index.
    destruct (decide (i < 26)%nat) as [Hi|Hi].
    + split; [intros _; exact Hi | intros _; eexists; reflexivity].
    + split; [intros [? [=]] | intros; contradiction].
  - intros name Hname.
    change k4abt_skeleton_t with (Tstruct [("joints", Tarray k4abt_joint_t 26)]).
    cbn [select struct_member]. rewrite decide_False by congruence. reflexivity.
Qed.

Lemma k4abt_skeleton_t_joints_witness :
  joint_ordinal K4ABT_JOINT_HEAD = Some 20 /\
  subobject k4abt_skeleton_t [Member "joints"; Index 20] =
    Some (560%nat, k4abt_joint_t).
Proof.
  split; [reflexivity|].
  exact (proj1 (proj2 (proj2 (proj2
    (k4abt_skeleton_t_joints K4ABT_JOINT_HEAD 20 eq_refl ltac:(discriminate)))))).
Defined.

(** ** The default configuration *)

(** C5: the member [sensor_orientation] of [K4ABT_TRACKER_CONFIG_DEFAULT] is
    [K4ABT_SENSOR_ORIENTATION_DEFAULT], whose value is 0, and a
    [k4abt_tracker_configuration_t] has this member only. *)
Theorem K4ABT_TRACKER_CONFIG_DEFAULT_orientation :
  sensor_orientation K4ABT_TRACKER_CONFIG_DEFAULT = K4ABT_SENSOR_ORIENTATION_DEFAULT
  /\ orientation_ordinal (sensor_orientation K4ABT_TRACKER_CONFIG_DEFAULT) = Some 0
  /\ _k4abt_tracker_configuration_t = Tstruct [("sensor_orientation", Tenum)]
  /\ (forall c : k4abt_tracker_configuration_t,
        c = Build_k4abt_tracker_configuration_t (sensor_orientation c)).
Proof.
  repeat split. intros []. reflexivity.
Qed.

(** ** The version *)

(** C6: [K4ABT_VERSION_STR] is the string 0.9.2, the version numbers are
    0, 9 and 2, and the string is these three numbers in decimal joined by
    dots. *)
Theorem K4ABT_VERSION_STR_dotted :
  K4ABT_VERSION_STR = "0.9.2"
  /\ K4ABT_VERSION_MAJOR = 0%N
  /\ K4ABT_VERSION_MINOR = 9%N
  /\ K4ABT_VERSION_PATCH = 2%N
  /\ K4ABT_VERSION_STR =
       dotted K4ABT_VERSION_MAJOR K4ABT_VERSION_MINOR K4ABT_VERSION_PATCH.
Proof. repeat split. Qed.

Lemma string_app_empty_r (s : string) : s +:+ EmptyString = s.
Proof. induction s as [|c s IH]; [reflexivity | exact (f_equal (String c) IH)]. Qed.

(** A version without prerelease and build metadata is the dotted triple. *)
Lemma semver_release (major minor patch : N) :
  semver major minor patch EmptyString EmptyString = dotted major minor patch.
Proof.
  unfold semver. rewrite !decide_True by reflexivity.
  change (EmptyString +:+ EmptyString) with EmptyString.
  apply string_app_empty_r.
Qed.

(** C8: [K4ABT_VERSION_PRERELEASE] and [K4ABT_VERSION_BUILD_METADATA] are
    empty, so the full version has no suffix: it is 0.9.2, the same string as
    [K4ABT_VERSION_STR]. *)
Theorem K4ABT_VERSION_no_suffix :
  K4ABT_VERSION_PRERELEASE = EmptyString
  /\ K4ABT_VERSION_BUILD_METADATA = EmptyString
  /\ semver K4ABT_VERSION_MAJOR K4ABT_VERSION_MINOR K4ABT_VERSION_PATCH
       K4ABT_VERSION_PRERELEASE K4ABT_VERSION_BUILD_METADATA = "0.9.2"
  /\ semver K4ABT_VERSION_MAJOR K4ABT_VERSION_MINOR K4ABT_VERSION_PATCH
       K4ABT_VERSION_PRERELEASE K4ABT_VERSION_BUILD_METADATA = K4ABT_VERSION_STR.
Proof.
  split; [reflexivity|]. split; [reflexivity|].
  change K4ABT_VERSION_PRERELEASE with EmptyString.
  change K4ABT_VERSION_BUILD_METADATA with EmptyString.
  rewrite semver_release. split; reflexivity.
Qed.

(** ** The constants *)

(** C3: [K4ABT_BODY_INDEX_MAP_BACKGROUND] is 255, [K4ABT_INVALID_BODY_ID] is
    0xFFFFFFFF and not 0, and [K4ABT_DEFAULT_TRACKER_SMOOTHING_FACTOR] is the
    float one half (encoded 0x3F000000). *)
Theorem k4abt_constants :
  K4ABT_BODY_INDEX_MAP_BACKGROUND = 255
  /\ K4ABT_INVALID_BODY_ID = 0xFFFFFFFF
  /\ K4ABT_INVALID_BODY_ID <> 0
  /\ float_value K4ABT_DEFAULT_TRACKER_SMOOTHING_FACTOR = Some (1 # 2)%Q
  /\ K4ABT_DEFAULT_TRACKER_SMOOTHING_FACTOR = float_of_bits 0x3F000000.
Proof.
  split; [reflexivity|]. split; [reflexivity|]. split; [discriminate|].
  split; reflexivity.
Qed.

Lemma body_id_member : subobject k4abt_body_t [Member "id"] = Some (0%nat, Tuint32).
Proof. reflexivity. Qed.

(** C10: the member [id] of [k4abt_body_t] is a [uint32_t];
    [K4ABT_INVALID_BODY_ID] is the largest value of that type, 2^32 - 1, and
    differs from 0 and from [K4ABT_BODY_INDEX_MAP_BACKGROUND]; every id read
    from a body is at most [K4ABT_INVALID_BODY_ID], and [K4ABT_INVALID_BODY_ID]
    assigned to the id of a body is read back unchanged. *)
Theorem K4ABT_INVALID_BODY_ID_fits (body : object) :
  length body = sizeof k4abt_body_t ->
  subobject k4abt_body_t [Member "id"] = Some (0%nat, Tuint32)
  /\ K4ABT_INVALID_BODY_ID = max_unsigned Tuint32
  /\ K4ABT_INVALID_BODY_ID = 2 ^ 32 - 1
  /\ K4ABT_INVALID_BODY_ID <> 0
  /\ K4ABT_INVALID_BODY_ID <> K4ABT_BODY_INDEX_MAP_BACKGROUND
  /\ (forall id : Z,
        load_scalar Tuint32 k4abt_body_t [Member "id"] body = Some id ->
        0 <= id <= K4ABT_INVALID_BODY_ID)
  /\ exists body',
       store_scalar Tuint32 k4abt_body_t [Member "id"] K4ABT_INVALID_BODY_ID body
         = Some body'
       /\ load_scalar Tuint32 k4abt_body_t [Member "id"] body'
         = Some K4ABT_INVALID_BODY_ID.
Proof.
  intros Hlen.
  split; [exact body_id_member|]. split; [reflexivity|]. split; [reflexivity|].
  split; [discriminate|]. split; [discriminate|]. split.
  - unfold load_scalar. rewrite body_id_member. cbn [scalar_eqb].
    intros id [= <-].
    pose proof (le_combine_bound (peek 0 (sizeof Tuint32) body)) as Hb.
    rewrite length_peek in Hb by (rewrite Hlen; vm_compute; lia).
    change (2 ^ (8 * Z.of_nat (sizeof Tuint32))) with (K4ABT_INVALID_BODY_ID + 1) in Hb.
    change (sizeof Tuint32) with 4%nat in Hb. lia.
  - destruct (load_store_same Tuint32 k4abt_body_t [Member "id"] 0 Tuint32
                K4ABT_INVALID_BODY_ID body body_id_member eq_refl)
      as (body' & Hstore & _ & Hload).
    + rewrite Hlen. vm_compute. lia.
    + unfold K4ABT_INVALID_BODY_ID. lia.
    + exists body'. split; assumption.
Qed.

Lemma K4ABT_INVALID_BODY_ID_fits_witness :
  exists body',
    store_scalar Tuint32 k4abt_body_t [Member "id"] K4ABT_INVALID_BODY_ID
      (replicate 732 Byte.x00) = Some body'
    /\ load_scalar Tuint32 k4abt_body_t [Member "id"] body'
      = Some K4ABT_INVALID_BODY_ID.
Proof.
  apply (K4ABT_INVALID_BODY_ID_fits (replicate 732 Byte.x00)).
  reflexivity.
Defined.

(** ** The quaternion *)

Section Views.
Variable t : ctype.

(** Assigning the members [ps] leaves a member stored apart from all of
    them as it was. *)
Lemma store_floats_frame ps offs fs obj obj' ty p off mt :
  Forall2 (float_at t) ps offs ->
  subobject t p = Some (off, mt) ->
  Forall (fun o => off + sizeof mt <= o \/ o + 4 <= off)%nat offs ->
  store_floats t ps fs obj = Some obj' ->
  load_scalar ty t p obj' = load_scalar ty t p obj.
Proof.
  intros Hps Hp. revert fs obj.
  induction Hps as [|q o ps offs Hq Hps IH]; intros fs obj Hoffs.
  - destruct fs; intros [= <-]; reflexivity.
  - destruct fs as [|f fs]; [intros [= <-]; reflexivity|].
    apply Forall_cons in Hoffs as [Ho Hoffs]. simpl.
    destruct (store_float t q f obj) as [obj1|] eqn:Hstore; [|discriminate].
    simpl. intros Hrest. rewrite (IH _ _ Hoffs Hrest).
    exact (load_store_other _ _ _ _ _ _ _ _ _ _ _ _ Hq Hp Ho Hstore).
Qed.

(** Assigning members that do not overlap, then reading them. *)
Lemma store_floats_load ps offs fs obj :
  Forall2 (float_at t) ps offs ->
  apart offs ->
  Forall (fun o => o + 4 <= length obj)%nat offs ->
  Forall is_float32 fs ->
  length fs = length ps ->
  exists obj',
    store_floats t ps fs obj = Some obj' /\
    load_floats t ps obj' = Some <$> fs.
Proof.
  intros Hps. revert fs obj.
  induction Hps as [|p o ps offs Hp Hps IH]; intros fs obj Hapart Hfit Hfs Hlen.
  - destruct fs; [|discriminate]. exists obj. split; reflexivity.
  - destruct fs as [|f fs]; [discriminate|].
    inversion Hapart as [|? ? Ho Hapart']; subst.
    apply Forall_cons in Hfit as [Hfit_o Hfit].
    apply Forall_cons in Hfs as [Hf Hfs].
    destruct (load_store_same Tfloat t p o Tfloat f obj Hp eq_refl Hfit_o Hf)
      as (obj1 & Hstore & Hlen1 & Hload).
    destruct (IH fs obj1 Hapart') as (obj' & Hrest & Hloads).
    + rewrite Hlen1. exact Hfit.
    + exact Hfs.
    + simpl in Hlen. lia.
    + exists obj'. split.
      * simpl. fold (store_float t p f obj) in Hstore. rewrite Hstore. exact Hrest.
      * unfold load_floats in *. rewrite !fmap_cons, Hloads. f_equal.
        unfold load_float.
        rewrite (store_floats_frame ps offs fs obj1 obj' Tfloat p o Tfloat Hps Hp);
          [exact Hload | | exact Hrest].
        eapply Forall_impl; [exact Ho|]. simpl. intros o'. lia.
Qed.
End Views.

Lemma named_view_floats :
  Forall2 (float_at k4a_quaternion_t) named_view [0; 4; 8; 12]%nat.
Proof. repeat constructor. Qed.

Lemma array_view_floats :
  Forall2 (float_at k4a_quaternion_t) array_view [0; 4; 8; 12]%nat.
Proof. repeat constructor. Qed.

Lemma quaternion_floats_apart : apart [0; 4; 8; 12]%nat.
Proof. repeat constructor; lia. Qed.

(** C2: in a [k4a_quaternion_t], which takes the room of four floats, the
    members [wxyz.w], [wxyz.x], [wxyz.y], [wxyz.z] are the same subobjects as
    [v[0]], [v[1]], [v[2]], [v[3]]: reading through either view gives the same
    four floats, assigning through either view gives the same object, the
    floats assigned through the named members are those read through the
    array, and the floats assigned through the array are those read through
    the named members. *)
Theorem k4a_quaternion_t_views (q : object) (w x y z : float32) :
  length q = sizeof k4a_quaternion_t ->
  is_float32 w -> is_float32 x -> is_float32 y -> is_float32 z ->
  sizeof k4a_quaternion_t = (4 * sizeof Tfloat)%nat
  /\ subobject k4a_quaternion_t <$> named_view = subobject k4a_quaternion_t <$> array_view
  /\ load_floats k4a_quaternion_t array_view q = load_floats k4a_quaternion_t named_view q
  /\ Forall is_Some (load_floats k4a_quaternion_t array_view q)
  /\ store_floats k4a_quaternion_t array_view [w; x; y; z] q =
       store_floats k4a_quaternion_t named_view [w; x; y; z] q
  /\ (exists q',
        store_floats k4a_quaternion_t named_view [w; x; y; z] q = Some q' /\
        load_floats k4a_quaternion_t array_view q' = [Some w; Some x; Some y; Some z])
  /\ (exists q',
        store_floats k4a_quaternion_t array_view [w; x; y; z] q = Some q' /\
        load_floats k4a_quaternion_t named_view q' = [Some w; Some x; Some y; Some z]).
Proof.
  intros Hlen Hw Hx Hy Hz.
  assert (Hfit : Forall (fun o => o + 4 <= length q)%nat [0; 4; 8; 12]%nat).
  { rewrite Hlen. repeat constructor. }
  assert (Hfs : Forall is_float32 [w; x; y; z]).
  { repeat apply Forall_cons_2; [assumption.. | apply Forall_nil_2]. }
  split; [reflexivity|]. split; [reflexivity|]. split; [reflexivity|].
  split; [repeat constructor; eexists; reflexivity|].
  split; [reflexivity|]. split.
  - destruct (store_floats_load _ _ _ _ q named_view_floats quaternion_floats_apart
                Hfit Hfs eq_refl) as (q' & Hstore & Hload).
    exists q'. split; [exact Hstore | exact Hload].
  - destruct (store_floats_load _ _ _ _ q array_view_floats quaternion_floats_apart
                Hfit Hfs eq_refl) as (q' & Hstore & Hload).
    exists q'. split; [exact Hstore | exact Hload].
Qed.

(** The encodings of 1, 2, 3 and 4, and what they denote. *)
Lemma float32_one_to_four :
  bits_of_float <$> (float32_of_Z <$> [1; 2; 3; 4]) =
    [0x3F800000; 0x40000000; 0x40400000; 0x40800000]
  /\ float_value <$> (float_of_bits <$> [0x3F800000; 0x40000000; 0x40400000; 0x40800000]) =
    [Some 1%Q; Some 2%Q; Some 3%Q; Some 4%Q].
Proof. split; reflexivity. Qed.

Lemma k4a_quaternion_t_views_witness :
  exists q',
    store_floats k4a_quaternion_t named_view
      [ bits_of_float (float32_of_Z 1); bits_of_float (float32_of_Z 2);
        bits_of_float (float32_of_Z 3); bits_of_float (float32_of_Z 4) ]
      (replicate 16 Byte.x00) = Some q'
    /\ load_floats k4a_quaternion_t array_view q' =
      [ Some (bits_of_float (float32_of_Z 1)); Some (bits_of_float (float32_of_Z 2));
        Some (bits_of_float (float32_of_Z 3)); Some (bits_of_float (float32_of_Z 4)) ].
Proof.
  destruct (k4a_quaternion_t_views (replicate 16 Byte.x00)
              (bits_of_float (float32_of_Z 1)) (bits_of_float (float32_of_Z 2))
              (bits_of_float (float32_of_Z 3)) (bits_of_float (float32_of_Z 4)))
    as (_ & _ & _ & _ & _ & Hnamed & _);
    [ reflexivity | vm_compute; split; [discriminate | reflexivity] .. | exact Hnamed ].
Defined.

(** * Further properties *)

(** ** Layout: sizes, bounds and alignment *)

Lemma ctype_nested_ind (P : ctype -> Prop) :
  P Tfloat -> P Tuint32 -> P Tenum ->
  (forall e n, P e -> P (Tarray e n)) ->
  (forall ms, Forall (fun m => P m.2) ms -> P (Tstruct ms)) ->
  (forall ms, Forall (fun m => P m.2) ms -> P (Tunion ms)) ->
  forall t, P t.
Proof.
  intros Hf Hu He Ha Hs Hn. fix IH 1. intros [ | | | e n | ms | ms].
  - exact Hf.
  - exact Hu.
  - exact He.
  - apply Ha, IH.
  - apply Hs. induction ms as [|[n mt] ms IHms]; constructor; [apply IH | exact IHms].
  - apply Hn. induction ms as [|[n mt] ms IHms]; constructor; [apply IH | exact IHms].
Qed.

Lemma sizeof_struct ms :
  sizeof (Tstruct ms) = align_up (struct_end 0 ms) (widest_member ms).
Proof. reflexivity. Qed.

Lemma sizeof_union ms :
  sizeof (Tunion ms) = align_up (union_largest ms) (widest_member ms).
Proof. reflexivity. Qed.

Lemma alignof_members ms :
  alignof (Tstruct ms) = widest_member ms /\ alignof (Tunion ms) = widest_member ms.
Proof. split; reflexivity. Qed.

Lemma widest_member_cases ms :
  Forall (fun m => alignof m.2 = 1 \/ alignof m.2 = 4)%nat ms ->
  (widest_member ms = 1 \/ widest_member ms = 4)%nat.
Proof.
  induction 1 as [|[n mt] ms Hm _ IH]; [left; reflexivity|].
  simpl in *. lia.
Qed.

(** Every alignment is 1 (a structure or union without members) or 4. *)
Lemma alignof_cases t : (alignof t = 1 \/ alignof t = 4)%nat.
Proof.
  induction t as [ | | | e n IH | ms IH | ms IH] using ctype_nested_ind;
    try (right; reflexivity); [exact IH | |];
    apply (widest_member_cases ms IH).
Qed.

Lemma align_up_ge n a : (0 < a -> n <= align_up n a)%nat.
Proof.
  intros Ha. unfold align_up.
  pose proof (Nat.div_mod_eq (n + a - 1) a) as Hdm.
  pose proof (Nat.mod_upper_bound (n + a - 1) a) as Hr. nia.
Qed.

Lemma align_up_divide n a : (a | align_up n a)%nat.
Proof. unfold align_up. apply Nat.divide_factor_r. Qed.

Lemma widest_member_ge ms n mt :
  (n, mt) ∈ ms -> (alignof mt <= widest_member ms)%nat.
Proof.
  induction ms as [|[n' mt'] ms IH]; [intros H; inversion H|].
  intros [[= <- <-]|Hin]%elem_of_cons; simpl; [|specialize (IH Hin)]; lia.
Qed.

Lemma widest_member_divide ms n mt :
  (n, mt) ∈ ms -> (alignof mt | widest_member ms)%nat.
Proof.
  intros Hle%widest_member_ge.
  destruct (alignof_cases mt) as [-> | Hmt]; [apply Nat.divide_1_l|].
  destruct (alignof_cases (Tstruct ms)) as [Hw|Hw];
    rewrite (proj1 (alignof_members ms)) in Hw; rewrite Hmt, Hw in *; [lia | reflexivity].
Qed.

Lemma alignof_pos t : (0 < alignof t)%nat.
Proof. destruct (alignof_cases t); lia. Qed.

(** The size of a type is a multiple of its alignment. *)
Lemma sizeof_aligned t : (alignof t | sizeof t)%nat.
Proof.
  induction t as [ | | | e n IH | ms _ | ms _] using ctype_nested_ind;
    try reflexivity.
  - change (alignof e | n * sizeof e)%nat. apply Nat.divide_mul_r, IH.
  - change (widest_member ms | align_up (struct_end 0 ms) (widest_member ms))%nat.
    apply align_up_divide.
  - change (widest_member ms | align_up (union_largest ms) (widest_member ms))%nat.
    apply align_up_divide.
Qed.

Lemma struct_end_ge ms off : (off <= struct_end off ms)%nat.
Proof.
  revert off. induction ms as [|[n mt] ms IH]; intros off; simpl; [lia|].
  etrans; [|apply IH]. pose proof (align_up_ge off _ (alignof_pos mt)). lia.
Qed.

(** A member of a structure starts at a multiple of its alignment, not before
    the members placed earlier, and ends before the structure does. *)
Lemma struct_member_spec ms off name o mt :
  struct_member off ms name = Some (o, mt) ->
  (off <= o /\ o + sizeof mt <= struct_end off ms)%nat
  /\ (alignof mt | o)%nat
  /\ (name, mt) ∈ ms.
Proof.
  revert off. induction ms as [|[n mt'] ms IH]; intros off; simpl; [discriminate|].
  pose proof (align_up_ge off _ (alignof_pos mt')) as Hup.
  destruct (decide (n = name)) as [->|Hn].
  - intros [= <- <-]. split; [split; [exact Hup | apply struct_end_ge]|].
    split; [apply align_up_divide | apply elem_of_cons; left; reflexivity].
  - intros Hm. destruct (IH _ Hm) as ((Hlo & Hhi) & Hal & Hin).
    split; [lia|]. split; [exact Hal | apply elem_of_cons; right; exact Hin].
Qed.

Lemma union_member_spec ms name o mt :
  union_member ms name = Some (o, mt) ->
  o = 0%nat /\ (sizeof mt <= union_largest ms)%nat /\ (name, mt) ∈ ms.
Proof.
  induction ms as [|[n mt'] ms IH]; simpl; [discriminate|].
  destruct (decide (n = name)) as [->|Hn].
  - intros [= <- <-]. split; [reflexivity|]. split; [lia | apply elem_of_cons; left; reflexivity].
  - intros Hm. destruct (IH Hm) as (Ho & Hsz & Hin).
    split; [exact Ho|]. split; [lia | apply elem_of_cons; right; exact Hin].
Qed.

(** One designator: the subobject lies inside the object and is aligned. *)
Lemma select_spec t d o t' :
  select t d = Some (o, t') ->
  (o + sizeof t' <= sizeof t)%nat /\ (alignof t' | o)%nat /\ (alignof t' | alignof t)%nat.
Proof.
  destruct t as [ | | | e n | ms | ms], d as [name|i]; cbn [select]; try discriminate.
  - destruct (decide (i < n)%nat) as [Hi|]; [|discriminate].
    intros [= <- <-]. change (sizeof (Tarray e n)) with (n * sizeof e)%nat.
    split; [nia|]. split; [|reflexivity].
    apply Nat.divide_mul_r, sizeof_aligned.
  - intros Hm. apply struct_member_spec in Hm as ((_ & Hhi) & Hal & Hin).
    pose proof (align_up_ge (struct_end 0 ms) _ (alignof_pos (Tstruct ms))) as Hup.
    rewrite sizeof_struct. change (alignof (Tstruct ms)) with (widest_member ms) in *.
    split; [lia|]. split; [exact Hal | exact (widest_member_divide _ _ _ Hin)].
  - intros Hm. apply union_member_spec in Hm as (-> & Hsz & Hin).
    pose proof (align_up_ge (union_largest ms) _ (alignof_pos (Tunion ms))) as Hup.
    rewrite sizeof_union. change (alignof (Tunion ms)) with (widest_member ms) in *.
    split; [lia|]. split; [apply Nat.divide_0_r | exact (widest_member_divide _ _ _ Hin)].
Qed.

(** A designator path: the same, by induction on the path. *)
Lemma subobject_spec t p off mt :
  subobject t p = Some (off, mt) ->
  (off + sizeof mt <= sizeof t)%nat /\ (alignof mt | off)%nat /\ (alignof mt | alignof t)%nat.
Proof.
  revert t off. induction p as [|d p IH]; intros t off; simpl.
  - intros [= <- <-]. split; [lia|]. split; [apply Nat.divide_0_r | reflexivity].
  - destruct (select t d) as [[o t']|] eqn:Hsel; [|discriminate].
    destruct (subobject t' p) as [[o' t'']|] eqn:Hsub; [|discriminate].
    intros [= <- <-].
    destruct (select_spec _ _ _ _ Hsel) as (Hb & Ha & Ht).
    destruct (IH _ _ Hsub) as (Hb' & Ha' & Ht').
    split; [lia|]. split.
    + apply Nat.divide_add_r; [|exact Ha']. etrans; [exact Ht' | exact Ha].
    + etrans; [exact Ht' | exact Ht].
Qed.

(** ** Enumerators by position *)

Section EnumPositions.
Context {A : Type} `{EqDecision A}.

Lemma enum_assign_positional (d : list (enumerator A)) (next : Z) :
  positional next d = true ->
  enum_assign next d = zip d.*1 ((fun k => next + Z.of_nat k) <$> seq 0 (length d)).
Proof.
  revert next. induction d as [|[a o] d IH]; intros next Hd; [reflexivity|].
  cbn [positional] in Hd. apply andb_true_iff in Hd as [Ho Hd].
  assert (Hv : match o with Some v => v | None => next end = next).
  { destruct o as [v|]; [exact (bool_decide_eq_true_1 _ Ho) | reflexivity]. }
  cbn [enum_assign fmap list_fmap length seq zip zip_with fst]. rewrite Hv, Z.add_0_r.
  f_equal. rewrite (IH _ Hd), <- fmap_S_seq, <- list_fmap_compose.
  f_equal. apply list_fmap_ext. intros _ k _. simpl. lia.
Qed.

Lemma assoc_zip_lookup (f : nat -> Z) (names : list A) (s i : nat) (a : A) :
  NoDup names ->
  names !! i = Some a ->
  assoc a (zip names (f <$> seq s (length names))) = Some (f (s + i)%nat).
Proof.
  intros Hnd. revert s i. induction Hnd as [|b names Hb Hnd IH]; intros s i Hi.
  - discriminate.
  - cbn [length seq fmap list_fmap zip zip_with assoc]. destruct i as [|i].
    + injection Hi as ->. rewrite decide_True by reflexivity.
      do 2 f_equal. lia.
    + rewrite decide_False.
      * fold (fmap f (seq (S s) (length names))).
        rewrite (IH (S s) i Hi). do 2 f_equal. lia.
      * intros ->. apply Hb. eapply list_elem_of_lookup_2. exact Hi.
Qed.

Lemma assoc_zip_Some (f : nat -> Z) (names : list A) (s : nat) (a : A) (v : Z) :
  assoc a (zip names (f <$> seq s (length names))) = Some v ->
  exists i, names !! i = Some a /\ v = f (s + i)%nat.
Proof.
  revert s. induction names as [|b names IH]; intros s; [discriminate|].
  cbn [length seq fmap list_fmap zip zip_with assoc].
  destruct (decide (a = b)) as [->|Hab].
  - intros [= <-]. exists 0%nat. split; [reflexivity | f_equal; lia].
  - fold (fmap f (seq (S s) (length names))). intros Hv.
    destruct (IH _ Hv) as (i & Hi & ->). exists (S i). split; [exact Hi | f_equal; lia].
Qed.

(** In a positional declaration the value of an enumerator is its position. *)
Lemma enum_ordinal_lookup (d : list (enumerator A)) (i : nat) (a : A) :
  positional 0 d = true -> NoDup d.*1 ->
  d.*1 !! i = Some a -> enum_ordinal d a = Some (Z.of_nat i).
Proof.
  intros Hd Hnd Hi. unfold enum_ordinal, enum_values.
  rewrite (enum_assign_positional _ _ Hd).
  replace (length d) with (length d.*1) by apply length_fmap.
  exact (assoc_zip_lookup (fun k => 0 + Z.of_nat k) _ 0 i a Hnd Hi).
Qed.

Lemma enum_ordinal_Some (d : list (enumerator A)) (a : A) (v : Z) :
  positional 0 d = true ->
  enum_ordinal d a = Some v -> exists i, d.*1 !! i = Some a /\ v = Z.of_nat i.
Proof.
  intros Hd. unfold enum_ordinal, enum_values.
  rewrite (enum_assign_positional _ _ Hd).
  replace (length d) with (length d.*1) by apply length_fmap.
  intros (i & Hi & ->)%assoc_zip_Some. exists i. split; [exact Hi | lia].
Qed.

Lemma positional_app (d d' : list (enumerator A)) (next : Z) :
  positional next (d ++ d') =
    positional next d && positional (next + Z.of_nat (length d)) d'.
Proof.
  revert next. induction d as [|[a o] d IH]; intros next.
  - simpl. now rewrite Z.add_0_r.
  - cbn [app positional length]. rewrite IH, <- andb_assoc.
    do 3 f_equal. lia.
Qed.

(** X1: in an enumeration whose explicit values (if any) are the positions,
    as in both enumerations of the header, a constant declared last without
    a value evaluates to the number of enumerators before it, and each of
    these evaluates to its position. *)
Theorem enum_count_sentinel (d : list (enumerator A)) (c : A) :
  positional 0 d = true ->
  NoDup d.*1 ->
  c ∉ d.*1 ->
  enum_ordinal (d ++ [(c, None)]) c = Some (Z.of_nat (length d))
  /\ (forall (i : nat) (a : A),
        d.*1 !! i = Some a -> enum_ordinal (d ++ [(c, None)]) a = Some (Z.of_nat i))
  /\ (forall a : A,
        enum_ordinal (d ++ [(c, None)]) a = Some (Z.of_nat (length d)) -> a = c).
Proof.
  intros Hd Hnd Hc.
  assert (Hd' : positional 0 (d ++ [(c, None)]) = true).
  { rewrite positional_app, Hd. reflexivity. }
  assert (Hnd' : NoDup (d ++ [(c, None)]).*1).
  { rewrite fmap_app. apply NoDup_app. split; [exact Hnd|]. split.
    - intros x Hx [->|[]%elem_of_nil]%elem_of_cons. exact (Hc Hx).
    - apply NoDup_singleton. }
  split; [|split].
  - apply enum_ordinal_lookup; [exact Hd' | exact Hnd' |].
    rewrite fmap_app. apply list_lookup_middle. symmetry. apply length_fmap.
  - intros i a Hi. apply enum_ordinal_lookup; [exact Hd' | exact Hnd' |].
    rewrite fmap_app. apply lookup_app_l_Some. exact Hi.
  - intros a (i & Hi & Hlen)%enum_ordinal_Some; [|exact Hd'].
    apply Nat2Z.inj in Hlen. subst i.
    pose proof (list_lookup_middle d.*1 [] c (length d)) as Hmid.
    rewrite fmap_app in Hi. change ([(c, None)].*1) with [c] in Hi.
    rewrite Hmid in Hi by (symmetry; apply length_fmap). now injection Hi as <-.
Qed.
End EnumPositions.

Lemma enum_count_sentinel_witness :
  joint_ordinal K4ABT_JOINT_COUNT = Some 26.
Proof.
  refine (proj1 (enum_count_sentinel (take 26 k4abt_joint_id_t_decl)
                   K4ABT_JOINT_COUNT eq_refl _ _)).
  - apply (bool_decide_unpack _). vm_compute. exact I.
  - apply (bool_decide_unpack _). vm_compute. exact I.
Defined.

(** ** Joints by index *)

Lemma joint_decl_positional : positional 0 k4abt_joint_id_t_decl = true.
Proof. reflexivity. Qed.

Lemma joint_decl_NoDup : NoDup k4abt_joint_id_t_decl.*1.
Proof. apply (bool_decide_unpack _). vm_compute. exact I. Qed.

(** X2: every element [joints[i]] of a skeleton, [i] below 26, is the joint
    of exactly one identifier, which is not the sentinel: the [i]-th
    enumerator of [k4abt_joint_id_t]. *)
Theorem skeleton_joint_named (i : nat) :
  (i < 26)%nat ->
  exists j : k4abt_joint_id_t,
    k4abt_joint_id_t_decl.*1 !! i = Some j
    /\ j <> K4ABT_JOINT_COUNT
    /\ joint_ordinal j = Some (Z.of_nat i)
    /\ subobject k4abt_skeleton_t [Member "joints"; Index i] =
         Some ((i * sizeof k4abt_joint_t)%nat, k4abt_joint_t)
    /\ (forall j' : k4abt_joint_id_t, joint_ordinal j' = Some (Z.of_nat i) -> j' = j).
Proof.
  intros Hi.
  destruct (lookup_lt_is_Some_2 k4abt_joint_id_t_decl.*1 i) as [j Hj].
  { change (length k4abt_joint_id_t_decl.*1) with 27%nat. lia. }
  assert (Hord : joint_ordinal j = Some (Z.of_nat i)).
  { exact (enum_ordinal_lookup _ _ _ joint_decl_positional joint_decl_NoDup Hj). }
  exists j. split; [exact Hj|]. split; [|split; [exact Hord|split]].
  - intros ->. change (joint_ordinal K4ABT_JOINT_COUNT) with (Some 26) in Hord.
    injection Hord as Hord. lia.
  - rewrite skeleton_joint_index. apply decide_True. exact Hi.
  - intros j' (i' & Hj' & Hii')%enum_ordinal_Some; [|exact joint_decl_positional].
    apply Nat2Z.inj in Hii'. subst i'. congruence.
Qed.

Lemma skeleton_joint_named_witness :
  exists j : k4abt_joint_id_t,
    k4abt_joint_id_t_decl.*1 !! 3%nat = Some j
    /\ j <> K4ABT_JOINT_COUNT
    /\ joint_ordinal j = Some 3
    /\ subobject k4abt_skeleton_t [Member "joints"; Index 3] =
         Some ((3 * sizeof k4abt_joint_t)%nat, k4abt_joint_t)
    /\ (forall j' : k4abt_joint_id_t, joint_ordinal j' = Some 3 -> j' = j).
Proof. apply (skeleton_joint_named 3). lia. Defined.

(** ** The body as a whole *)

Lemma subobject_app t p q :
  subobject t (p ++ q) =
    match subobject t p with
    | Some (o, t') =>
        match subobject t' q with
        | Some (o', t'') => Some ((o + o')%nat, t'')
        | None => None
        end
    | None => None
    end.
Proof.
  revert t. induction p as [|d p IH]; intros t; simpl.
  - destruct (subobject t q) as [[o' t'']|]; reflexivity.
  - destruct (select t d) as [[o t']|]; [|reflexivity].
    rewrite IH. destruct (subobject t' p) as [[o1 t1]|]; [|reflexivity].
    destruct (subobject t1 q) as [[o2 t2]|]; [|reflexivity].
    f_equal. f_equal. lia.
Qed.

Lemma body_joints_ (i : nat) :
  subobject k4abt_body_t (joints_ i) =
    if decide (i < 26)%nat then Some ((4 + 28 * i)%nat, k4abt_joint_t) else None.
Proof.
  change (joints_ i) with ([Member "skeleton"] ++ [Member "joints"; Index i]).
  rewrite subobject_app.
  change (subobject k4abt_body_t [Member "skeleton"]) with (Some (4%nat, k4abt_skeleton_t)).
  cbv beta iota. rewrite skeleton_joint_index. destruct (decide (i < 26)%nat); [|reflexivity].
  change (sizeof k4abt_joint_t) with 28%nat. do 2 f_equal. lia.
Qed.

(** A member of the orientation of joint [i], seen from the body. *)
Lemma body_orientation_ (i : nat) (view : list designator) (o : nat) (mt : ctype) :
  (i < 26)%nat ->
  subobject k4a_quaternion_t view = Some (o, mt) ->
  subobject k4abt_body_t (orientation_ i view) = Some ((16 + 28 * i + o)%nat, mt).
Proof.
  intros Hi Hview. unfold orientation_.
  rewrite subobject_app, body_joints_, decide_True by exact Hi.
  change (Member "orientation" :: view) with ([Member "orientation"] ++ view).
  rewrite subobject_app.
  change (subobject k4abt_joint_t [Member "orientation"])
    with (Some (12%nat, k4a_quaternion_t)).
  cbv beta iota. rewrite Hview. do 2 f_equal. lia.
Qed.

Lemma body_position_ (i : nat) :
  (i < 26)%nat ->
  subobject k4abt_body_t (position_ i) = Some ((4 + 28 * i)%nat, k4a_float3_t).
Proof.
  intros Hi. unfold position_.
  rewrite subobject_app, body_joints_, decide_True by exact Hi.
  change (subobject k4abt_joint_t [Member "position"]) with (Some (0%nat, k4a_float3_t)).
  do 2 f_equal. lia.
Qed.

Lemma quaternion_v_ (k : nat) :
  subobject k4a_quaternion_t (v_ k) =
    if decide (k < 4)%nat then Some ((4 * k)%nat, Tfloat) else None.
Proof.
  unfold v_, k4a_quaternion_t. cbn [subobject select union_member].
  rewrite decide_False by discriminate. rewrite decide_True by reflexivity.
  cbn [select]. destruct (decide (k < 4)%nat); [|reflexivity].
  change (sizeof Tfloat) with 4%nat. do 2 f_equal. lia.
Qed.

(** X3: a body takes the room of its id and of seven floats for each of the
    26 joints, without padding; a designator path that resolves in a
    [k4abt_body_t] names a subobject that lies within these bytes and starts
    at a multiple of its alignment. *)
Theorem k4abt_body_t_subobjects (p : list designator) (off : nat) (mt : ctype) :
  subobject k4abt_body_t p = Some (off, mt) ->
  sizeof k4abt_body_t = (sizeof Tuint32 + 26 * (7 * sizeof Tfloat))%nat
  /\ (off + sizeof mt <= sizeof k4abt_body_t)%nat
  /\ (alignof mt | off)%nat.
Proof.
  intros Hp. destruct (subobject_spec _ _ _ _ Hp) as (Hin & Hal & _).
  split; [reflexivity|]. split; [exact Hin | exact Hal].
Qed.

Lemma k4abt_body_t_subobjects_witness :
  (728 + 4 <= sizeof k4abt_body_t)%nat /\ (4 | 728)%nat.
Proof.
  exact (proj2 (k4abt_body_t_subobjects (orientation_ 25 (v_ 3)) 728 Tfloat eq_refl)).
Defined.

(** ** Integers as enumeration constants *)

Section EnumConstants.
Context {A : Type} `{EqDecision A}.

Lemma rassoc_zip (f : nat -> Z) `{!Inj (=) (=) f} (names : list A) (s : nat)
    (v : Z) (a : A) :
  rassoc v (zip names (f <$> seq s (length names))) = Some a <->
  exists i, names !! i = Some a /\ v = f (s + i)%nat.
Proof.
  revert s. induction names as [|b names IH]; intros s.
  - split; [discriminate | intros (i & [=] & _)].
  - cbn [length seq fmap list_fmap zip zip_with rassoc].
    fold (fmap f (seq (S s) (length names))).
    destruct (decide (v = f s)) as [->|Hv].
    + split.
      * intros [= <-]. exists 0%nat. split; [reflexivity | f_equal; lia].
      * intros ([|i] & Hi & Hfi); [now injection Hi as <-|].
        apply (inj f) in Hfi. lia.
    + rewrite IH. split.
      * intros (i & Hi & ->). exists (S i). split; [exact Hi | f_equal; lia].
      * intros ([|i] & Hi & ->).
        -- exfalso. apply Hv. f_equal. lia.
        -- exists i. split; [exact Hi | f_equal; lia].
Qed.

(** In a positional declaration, the constant an integer converts to is the
    enumerator at that position. *)
Lemma enum_constant_lookup (d : list (enumerator A)) (v : Z) (a : A) :
  positional 0 d = true ->
  enum_constant d v = Some a <-> exists i, d.*1 !! i = Some a /\ v = Z.of_nat i.
Proof.
  intros Hd. unfold enum_constant, enum_values.
  rewrite (enum_assign_positional _ _ Hd).
  replace (length d) with (length d.*1) by apply length_fmap.
  rewrite (rassoc_zip (fun k => 0 + Z.of_nat k) _ 0).
  split; intros (i & Hi & ->); exists i; (split; [exact Hi | simpl; lia]).
Qed.

Lemma enum_ordinal_constant (d : list (enumerator A)) (v : Z) (a : A) :
  positional 0 d = true -> NoDup d.*1 ->
  enum_ordinal d a = Some v <-> enum_constant d v = Some a.
Proof.
  intros Hd Hnd. rewrite (enum_constant_lookup _ _ _ Hd). split.
  - apply enum_ordinal_Some, Hd.
  - intros (i & Hi & ->). exact (enum_ordinal_lookup _ _ _ Hd Hnd Hi).
Qed.
End EnumConstants.

(** X4: a joint identifier and its integer value convert into each other:
    the integer [v] converts to the identifier [j] exactly when [v] is the
    value of [j]; every identifier has a value, and the integers that convert
    to an identifier are those from 0 to 26. *)
Theorem joint_id_conversions (j : k4abt_joint_id_t) (v : Z) :
  (joint_ordinal j = Some v <-> enum_constant k4abt_joint_id_t_decl v = Some j)
  /\ is_Some (joint_ordinal j)
  /\ (is_Some (enum_constant k4abt_joint_id_t_decl v) <-> 0 <= v <= 26).
Proof.
  split; [|split].
  - apply enum_ordinal_constant; [exact joint_decl_positional | exact joint_decl_NoDup].
  - destruct (joint_ordinal_cases j) as (n & Hn & _). exists n. exact Hn.
  - split.
    + intros [a (i & Hi & ->)%enum_constant_lookup]; [|exact joint_decl_positional].
      apply lookup_lt_Some in Hi.
      change (length k4abt_joint_id_t_decl.*1) with 27%nat in Hi. lia.
    + intros Hv.
      destruct (lookup_lt_is_Some_2 k4abt_joint_id_t_decl.*1 (Z.to_nat v)) as [a Ha].
      { change (length k4abt_joint_id_t_decl.*1) with 27%nat. lia. }
      exists a. apply enum_constant_lookup; [exact joint_decl_positional|].
      exists (Z.to_nat v). split; [exact Ha | lia].
Qed.

(** X5: in a body, for every joint [i] below 26, the named members of the
    orientation and the elements of its array view are the same floats: the
    [k]-th named member and [v[k]] are at the same place, are read alike and
    are assigned alike. *)
Theorem body_orientation_views (body : object) (i k : nat) (p : list designator)
    (f : float32) :
  (i < 26)%nat ->
  named_view !! k = Some p ->
  subobject k4abt_body_t (orientation_ i p) = Some ((16 + 28 * i + 4 * k)%nat, Tfloat)
  /\ subobject k4abt_body_t (orientation_ i (v_ k)) =
       Some ((16 + 28 * i + 4 * k)%nat, Tfloat)
  /\ load_float k4abt_body_t (orientation_ i p) body =
       load_float k4abt_body_t (orientation_ i (v_ k)) body
  /\ store_float k4abt_body_t (orientation_ i p) f body =
       store_float k4abt_body_t (orientation_ i (v_ k)) f body.
Proof.
  intros Hi Hk.
  assert (Hp : subobject k4a_quaternion_t p = Some ((4 * k)%nat, Tfloat)).
  { do 4 (destruct k as [|k]; [injection Hk as <-; reflexivity|]). discriminate. }
  assert (Hv : subobject k4a_quaternion_t (v_ k) = Some ((4 * k)%nat, Tfloat)).
  { rewrite quaternion_v_. apply decide_True.
    apply lookup_lt_Some in Hk. exact Hk. }
  pose proof (body_orientation_ i _ _ _ Hi Hp) as Hbp.
  pose proof (body_orientation_ i _ _ _ Hi Hv) as Hbv.
  rewrite <- Nat.add_assoc. split; [exact Hbp|]. split; [exact Hbv|].
  unfold load_float, store_float, load_scalar, store_scalar.
  rewrite Hbp, Hbv. split; reflexivity.
Qed.

Lemma body_orientation_views_witness :
  load_float k4abt_body_t (orientation_ 20 wxyz_y) (replicate 732 Byte.x00) =
    load_float k4abt_body_t (orientation_ 20 (v_ 2)) (replicate 732 Byte.x00).
Proof.
  refine (proj1 (proj2 (proj2
    (body_orientation_views (replicate 732 Byte.x00) 20 2 wxyz_y 0 _ eq_refl)))).
  lia.
Defined.

(** X6: in a body, assigning a float to [joints[i].orientation.v[k]] is read
    back from there and changes nothing else: not the id, not the position of
    any joint, and no other orientation float [joints[j].orientation.v[l]]. *)
Theorem body_orientation_store (body : object) (i k j l : nat) (f : float32) :
  length body = sizeof k4abt_body_t ->
  (i < 26)%nat -> (k < 4)%nat -> (j < 26)%nat -> (l < 4)%nat ->
  i <> j \/ k <> l ->
  is_float32 f ->
  exists body',
    store_float k4abt_body_t (orientation_ i (v_ k)) f body = Some body'
    /\ length body' = length body
    /\ load_float k4abt_body_t (orientation_ i (v_ k)) body' = Some f
    /\ load_float k4abt_body_t (orientation_ j (v_ l)) body' =
         load_float k4abt_body_t (orientation_ j (v_ l)) body
    /\ load_scalar Tuint32 k4abt_body_t [Member "id"] body' =
         load_scalar Tuint32 k4abt_body_t [Member "id"] body
    /\ subobject k4abt_body_t (position_ j) = Some ((4 + 28 * j)%nat, k4a_float3_t)
    /\ peek (4 + 28 * j) (sizeof k4a_float3_t) body' =
         peek (4 + 28 * j) (sizeof k4a_float3_t) body.
Proof.
  intros Hlen Hi Hk Hj Hl Hne Hf.
  assert (Hik : subobject k4abt_body_t (orientation_ i (v_ k)) =
                Some ((16 + 28 * i + 4 * k)%nat, Tfloat)).
  { apply body_orientation_; [exact Hi|]. rewrite quaternion_v_. now apply decide_True. }
  assert (Hjl : subobject k4abt_body_t (orientation_ j (v_ l)) =
                Some ((16 + 28 * j + 4 * l)%nat, Tfloat)).
  { apply body_orientation_; [exact Hj|]. rewrite quaternion_v_. now apply decide_True. }
  change (sizeof k4abt_body_t) with 732%nat in Hlen.
  destruct (load_store_same Tfloat _ _ _ _ f body Hik eq_refl) as (body' & Hst & Hlen' & Hld).
  { change (sizeof Tfloat) with 4%nat. lia. }
  { exact Hf. }
  exists body'. split; [exact Hst|]. split; [exact Hlen'|]. split; [exact Hld|].
  split; [|split; [|split; [exact (body_position_ j Hj)|]]].
  - apply (load_store_other Tfloat Tfloat _ _ _ _ _ _ _ f body body' Hik Hjl); [|exact Hst].
    change (sizeof Tfloat) with 4%nat. lia.
  - apply (load_store_other Tfloat Tuint32 _ _ _ _ _ _ _ f body body' Hik body_id_member);
      [|exact Hst].
    change (sizeof Tuint32) with 4%nat. lia.
  - unfold store_float, store_scalar in Hst. rewrite Hik in Hst.
    injection Hst as <-. apply peek_poke_disjoint.
    rewrite length_le_split. change (sizeof k4a_float3_t) with 12%nat. lia.
Qed.

Lemma body_orientation_store_witness :
  exists body',
    store_float k4abt_body_t (orientation_ 0 (v_ 3)) 0x3F800000
      (replicate 732 Byte.x00) = Some body'
    /\ length body' = 732%nat
    /\ load_float k4abt_body_t (orientation_ 0 (v_ 3)) body' = Some 0x3F800000
    /\ load_float k4abt_body_t (orientation_ 1 (v_ 0)) body' = Some 0.
Proof.
  destruct (body_orientation_store (replicate 732 Byte.x00) 0 3 1 0 0x3F800000)
    as (body' & Hst & Hlen & Hld & Hother & _);
    [ reflexivity | lia .. | left; lia | vm_compute; split; [discriminate | reflexivity] | ].
  exists body'. split; [exact Hst|]. split; [exact Hlen|]. split; [exact Hld|].
  rewrite Hother. reflexivity.
Defined.

(** ** The configuration as an object *)

Lemma configuration_member :
  subobject _k4abt_tracker_configuration_t [Member "sensor_orientation"] =
    Some (0%nat, Tenum).
Proof. reflexivity. Qed.

(** X7: a tracker configuration written to a configuration object is read
    back from it; the object of [K4ABT_TRACKER_CONFIG_DEFAULT] is all zero
    bytes, so a zero-initialised configuration is the default one; and an
    object holds a configuration exactly when its four bytes, read as an
    unsigned number, are at most 3. *)
Theorem configuration_round_trip (c : k4abt_tracker_configuration_t) (obj : object) :
  length obj = sizeof _k4abt_tracker_configuration_t ->
  (exists obj', store_configuration c obj = Some obj'
                /\ length obj' = length obj
                /\ load_configuration obj' = Some c)
  /\ store_configuration K4ABT_TRACKER_CONFIG_DEFAULT obj =
       Some (replicate (sizeof _k4abt_tracker_configuration_t) Byte.x00)
  /\ load_configuration (replicate (sizeof _k4abt_tracker_configuration_t) Byte.x00) =
       Some K4ABT_TRACKER_CONFIG_DEFAULT
  /\ (is_Some (load_configuration obj) <-> le_combine obj <= 3).
Proof.
  intros Hlen. change (sizeof _k4abt_tracker_configuration_t) with 4%nat in *.
  split; [|split; [|split]].
  - destruct c as [o]. unfold store_configuration, load_configuration.
    cbn [sensor_orientation].
    assert (exists n, orientation_ordinal o = Some n /\ 0 <= n < 2 ^ 32
                      /\ enum_constant k4abt_sensor_orientation_t_decl n = Some o)
      as (n & -> & Hn & Hback).
    { destruct o; eexists; (split; [reflexivity|]); split; (lia || reflexivity). }
    destruct (load_store_same Tenum _ _ _ _ n obj configuration_member eq_refl)
      as (obj' & Hst & Hlen' & Hld); [rewrite Hlen; reflexivity | exact Hn |].
    exists obj'. cbn [mbind option_bind sensor_orientation].
    split; [exact Hst|]. split; [exact Hlen'|]. rewrite Hld.
    cbn [mbind option_bind]. rewrite Hback. reflexivity.
  - unfold store_configuration. cbn [sensor_orientation K4ABT_TRACKER_CONFIG_DEFAULT].
    change (orientation_ordinal K4ABT_SENSOR_ORIENTATION_DEFAULT) with (Some 0).
    cbn [mbind option_bind]. unfold store_scalar. rewrite configuration_member.
    cbn [scalar_eqb]. f_equal. unfold poke.
    rewrite <- (app_nil_r obj), list_inserts_0_r by (rewrite Hlen; reflexivity).
    reflexivity.
  - reflexivity.
  - unfold load_configuration, load_scalar. rewrite configuration_member.
    cbn [scalar_eqb mbind option_bind]. unfold peek.
    rewrite drop_0, take_ge by (rewrite Hlen; reflexivity).
    pose proof (le_combine_bound obj) as Hb.
    unfold enum_constant.
    change (enum_values k4abt_sensor_orientation_t_decl)
      with [ (K4ABT_SENSOR_ORIENTATION_DEFAULT, 0);
             (K4ABT_SENSOR_ORIENTATION_CLOCKWISE90, 1);
             (K4ABT_SENSOR_ORIENTATION_COUNTERCLOCKWISE90, 2);
             (K4ABT_SENSOR_ORIENTATION_FLIP180, 3) ].
    cbn [rassoc]. repeat case_decide; cbn [mbind option_bind];
      (split; [intros Hsome | intros Hle]);
      first [ lia | eexists; reflexivity | destruct Hsome as [? [=]] ].
Qed.

Lemma configuration_round_trip_witness :
  exists obj',
    store_configuration
      (Build_k4abt_tracker_configuration_t K4ABT_SENSOR_ORIENTATION_FLIP180)
      [Byte.xff; Byte.xff; Byte.xff; Byte.xff] = Some obj'
    /\ length obj' = 4%nat
    /\ load_configuration obj' =
         Some (Build_k4abt_tracker_configuration_t K4ABT_SENSOR_ORIENTATION_FLIP180).
Proof.
  apply (configuration_round_trip
           (Build_k4abt_tracker_configuration_t K4ABT_SENSOR_ORIENTATION_FLIP180)
           [Byte.xff; Byte.xff; Byte.xff; Byte.xff]).
  reflexivity.
Defined.
